(** * ESP32-Simple-Timer: the polling interval timer of Timer.hpp / Timer.cpp

    A shallow embedding of the [Timer] class and of the narrowing helper
    [NarrowConvertToUint32], followed by the properties of the timer's
    state machine.

    Conventions.
    - [uint32_t] and [uint64_t] values are integers of [Z] kept in range,
      every wrap-around of the C++ arithmetic is written out ([wrap64]).
    - [float] and [double] are IEEE-754 binary32 and binary64 values, as
      described by the Standard Library's [SpecFloat].
    - [millis()] is the platform clock.  A member function is given the
      value [now] that the clock shows while it runs. *)

From Stdlib Require Import ZArith Lia Bool List.
From Stdlib Require Import Floats.SpecFloat.
Import ListNotations.

Local Open Scope Z_scope.

(** ** Machine integers *)

Module Cxx.

Definition UINT32_MAX : Z := 4294967295.
Definition UINT64_MAX : Z := 18446744073709551615.

Definition wrap32 (z : Z) : Z := z mod 2 ^ 32.
Definition wrap64 (z : Z) : Z := z mod 2 ^ 64.

Definition in_uint32 (z : Z) : Prop := 0 <= z <= UINT32_MAX.
Definition in_uint64 (z : Z) : Prop := 0 <= z <= UINT64_MAX.

(** [static_cast<int64_t>] of an unsigned 64-bit value (two's complement). *)
Definition to_int64 (z : Z) : Z :=
  let w := wrap64 z in
  if w <? 2 ^ 63 then w else w - 2 ^ 64.

(** ** IEEE-754 formats *)

Definition float : Type := spec_float.   (* binary32 *)
Definition double : Type := spec_float.  (* binary64 *)

Definition prec32 : Z := 24.
Definition emax32 : Z := 128.
Definition prec64 : Z := 53.
Definition emax64 : Z := 1024.

(** An integer constant as a [float] / [double] (round to nearest even). *)
Definition float_of_Z (z : Z) : float := binary_normalize prec32 emax32 z 0 false.
Definition double_of_Z (z : Z) : double := binary_normalize prec64 emax64 z 0 false.

(** [static_cast<double>(f)]: every binary32 value is a binary64 value, only
    the mantissa is renormalised. *)
Definition double_of_float (f : float) : double :=
  match f with
  | S754_finite s m e => binary_round prec64 emax64 s m e
  | _ => f
  end.

Definition double_mul (x y : double) : double := SFmul prec64 emax64 x y.
Definition double_ltb (x y : double) : bool := SFltb x y.

(** The integer part of a finite value [m * 2^e], towards zero. *)
Definition trunc_mantissa (m : positive) (e : Z) : Z :=
  if 0 <=? e then Z.pos m * 2 ^ e else Z.pos m / 2 ^ (- e).

(** [static_cast<uint32_t>(d)]: truncation toward zero.  The conversion is
    undefined ([None]) when the truncated value has no [uint32_t]
    representation, and for infinities and NaN. *)
Definition double_to_uint32 (d : double) : option Z :=
  match d with
  | S754_zero _ => Some 0
  | S754_finite s m e =>
      let t := trunc_mantissa m e in
      if s then (if t =? 0 then Some 0 else None)
      else if t <=? UINT32_MAX then Some t else None
  | _ => None
  end.

End Cxx.
Import Cxx.

(** ** Timer.hpp: [NarrowConvertToUint32]

    The function template is instantiated at the arithmetic types below; a
    type class lists what the template body asks of [T]. *)

Class Arithmetic (T : Type) : Type := {
  op_lt : T -> T -> bool;            (* operator< at type T *)
  of_int : Z -> T;                   (* an int literal converted to T *)
  limits_max : T;                    (* numeric_limits<T>::max() *)
  of_uint32 : Z -> T;                (* static_cast<T>(a uint32_t) *)
  to_uint32 : T -> option Z          (* static_cast<uint32_t>(a T) *)
}.

Definition uint64_t : Type := Z.

#[export] Instance Arithmetic_uint64_t : Arithmetic uint64_t := {
  op_lt := Z.ltb;
  of_int := wrap64;
  limits_max := UINT64_MAX;
  of_uint32 := fun z => z;
  to_uint32 := fun z => Some (wrap32 z)
}.

#[export] Instance Arithmetic_double : Arithmetic double := {
  op_lt := double_ltb;
  of_int := double_of_Z;
  limits_max := S754_finite false 9007199254740991 971;
  of_uint32 := double_of_Z;
  to_uint32 := double_to_uint32
}.

Definition NarrowConvertToUint32 {T : Type} `{Arithmetic T} (value_ : T) : option Z :=
  if op_lt value_ (of_int 0) then
    Some 0
  else if op_lt limits_max (of_uint32 UINT32_MAX) then
    to_uint32 value_
  else if op_lt (of_uint32 UINT32_MAX) value_ then
    Some UINT32_MAX
  else
    to_uint32 value_.

(** ** Timer.hpp / Timer.cpp: [class Timer] *)

Record Timer : Type := mkTimer {
  mMillisStartPeriod : Z;            (* uint64_t *)
  mMillisInterval : Z;               (* uint32_t *)
  mOverrideIntervalReached : bool;
  mActivated : bool
}.

Definition TIMER_CONTINUE : bool := false.
Definition TIMER_RESET : bool := true.

Definition SEC_TO_MILLIS_MULTI : Z := 1000.
Definition MIN_TO_MILLIS_MULTI : Z := 60000.

(** The fields hold values of their C++ types. *)
Definition wf (t : Timer) : Prop :=
  in_uint64 (mMillisStartPeriod t) /\ in_uint32 (mMillisInterval t).

Section Methods.

(** What [millis()] returns during the call. *)
Variable now : Z.

Definition ResetInterval (t : Timer) : Timer :=
  {| mMillisStartPeriod := now;
     mMillisInterval := mMillisInterval t;
     mOverrideIntervalReached := false;
     mActivated := mActivated t |}.

Definition set_mActivated (b : bool) (t : Timer) : Timer :=
  {| mMillisStartPeriod := mMillisStartPeriod t;
     mMillisInterval := mMillisInterval t;
     mOverrideIntervalReached := mOverrideIntervalReached t;
     mActivated := b |}.

Definition set_mMillisInterval (i : Z) (t : Timer) : Timer :=
  {| mMillisStartPeriod := mMillisStartPeriod t;
     mMillisInterval := i;
     mOverrideIntervalReached := mOverrideIntervalReached t;
     mActivated := mActivated t |}.

(** [explicit Timer(uint32_t)]: the other members take their default
    member initialisers [{millis()}], [{false}], [{true}]. *)
Definition Timer_interval (intervalInMillis_ : Z) : Timer :=
  {| mMillisStartPeriod := now;
     mMillisInterval := intervalInMillis_;
     mOverrideIntervalReached := false;
     mActivated := true |}.

Definition IntervalReached (t : Timer) : bool * Timer :=
  if negb (mActivated t) then (false, t)
  else if mOverrideIntervalReached t
          || (wrap64 (mMillisStartPeriod t + mMillisInterval t) <? now)
  then (true, ResetInterval t)
  else (false, t).

(** [uint64_t + int64_t - millis()] is computed at [uint64_t]. *)
Definition TimeLeftInMillis (t : Timer) : option Z :=
  NarrowConvertToUint32 (T := uint64_t)
    (wrap64 (wrap64 (mMillisStartPeriod t + wrap64 (to_int64 (mMillisInterval t))) - now)).

(** [int64_t - uint64_t] is computed at [uint64_t]. *)
Definition TimePassedInMillis (t : Timer) : option Z :=
  NarrowConvertToUint32 (T := uint64_t)
    (wrap64 (wrap64 (to_int64 now) - mMillisStartPeriod t)).

Definition Activate (t : Timer) : Timer :=
  set_mActivated true (ResetInterval t).

Definition Deactivate (t : Timer) : Timer :=
  set_mActivated false (ResetInterval t).

Definition IsActive (t : Timer) : bool := mActivated t.

Definition GetInterval (t : Timer) : Z := mMillisInterval t.

Definition SetInterval (millisInterval_ : Z) (resetTimer_ : bool) (t : Timer) : Timer :=
  let t1 := set_mMillisInterval millisInterval_ t in
  let t2 := if Bool.eqb TIMER_RESET resetTimer_ then ResetInterval t1 else t1 in
  set_mActivated true t2.

Definition OverrideIntervalReached (t : Timer) : Timer :=
  {| mMillisStartPeriod := mMillisStartPeriod t;
     mMillisInterval := mMillisInterval t;
     mOverrideIntervalReached := true;
     mActivated := mActivated t |}.

(** [Timer()]: delegates to [Timer(numeric_limits<uint32_t>::max())], then
    deactivates. *)
Definition Timer_default : Timer :=
  Deactivate (Timer_interval UINT32_MAX).

End Methods.

Definition SecToMillis (secondsToConvert_ : float) : option Z :=
  NarrowConvertToUint32 (T := double)
    (double_mul (double_of_float secondsToConvert_) (double_of_Z SEC_TO_MILLIS_MULTI)).

Definition MinToMillis (minutesToConvert_ : float) : option Z :=
  NarrowConvertToUint32 (T := double)
    (double_mul (double_of_float minutesToConvert_) (double_of_Z MIN_TO_MILLIS_MULTI)).

(** ** Sequences of calls

    A client sees a timer only through its public member functions.  [call]
    names them, [exec] runs one at a clock value and [run] a whole sequence,
    collecting what the calls return. *)

Inductive call : Type :=
| CallIntervalReached
| CallTimeLeftInMillis
| CallTimePassedInMillis
| CallActivate
| CallDeactivate
| CallIsActive
| CallSetInterval (millisInterval_ : Z) (resetTimer_ : bool)
| CallGetInterval
| CallResetInterval
| CallOverrideIntervalReached.

Inductive result : Type :=
| RetVoid
| RetBool (b : bool)
| RetUint32 (v : option Z).

Definition exec (now : Z) (c : call) (t : Timer) : result * Timer :=
  match c with
  | CallIntervalReached =>
      let (b, t') := IntervalReached now t in (RetBool b, t')
  | CallTimeLeftInMillis => (RetUint32 (TimeLeftInMillis now t), t)
  | CallTimePassedInMillis => (RetUint32 (TimePassedInMillis now t), t)
  | CallActivate => (RetVoid, Activate now t)
  | CallDeactivate => (RetVoid, Deactivate now t)
  | CallIsActive => (RetBool (IsActive t), t)
  | CallSetInterval i r => (RetVoid, SetInterval now i r t)
  | CallGetInterval => (RetUint32 (Some (GetInterval t)), t)
  | CallResetInterval => (RetVoid, ResetInterval now t)
  | CallOverrideIntervalReached => (RetVoid, OverrideIntervalReached t)
  end.

Fixpoint run (cs : list (Z * call)) (t : Timer) : list result :=
  match cs with
  | [] => []
  | (now, c) :: cs' =>
      let (r, t') := exec now c t in r :: run cs' t'
  end.

(** [IntervalReached] polled at each clock value of a list, in order. *)
Fixpoint poll (clock : list Z) (t : Timer) : list bool * Timer :=
  match clock with
  | [] => ([], t)
  | now :: clock' =>
      let (b, t1) := IntervalReached now t in
      let (bs, t2) := poll clock' t1 in
      (b :: bs, t2)
  end.

(** The operations that restart the period of [t] at the clock value [now],
    each with the state it leaves. *)
Inductive restarts_period (now : Z) (t : Timer) : Timer -> Prop :=
| restart_Activate : restarts_period now t (Activate now t)
| restart_Deactivate : restarts_period now t (Deactivate now t)
| restart_ResetInterval : restarts_period now t (ResetInterval now t)
| restart_SetInterval : forall i,
    restarts_period now t (SetInterval now i TIMER_RESET t)
| restart_IntervalReached :
    fst (IntervalReached now t) = true ->
    restarts_period now t (snd (IntervalReached now t)).

(** ** The documented behaviour, for comparison

    The saturating clamp of an integer to [uint32_t], and the remaining
    time [period start + interval - now] as a mathematical integer. *)

Definition clamp_to_u32 (z : Z) : Z :=
  if z <? 0 then 0 else if UINT32_MAX <? z then UINT32_MAX else z.

Definition time_left_documented (now : Z) (t : Timer) : Z :=
  clamp_to_u32 (mMillisStartPeriod t + mMillisInterval t - now).

(** "Once the interval time is reached (or exceeded)": the period has lasted
    at least the interval. *)
Definition interval_elapsed_documented (now : Z) (t : Timer) : bool :=
  mMillisInterval t <=? now - mMillisStartPeriod t.

(** The clamp on a [double]: negative values give 0, values above the
    largest [uint32_t] give that bound, the others are truncated. *)
Definition saturating_clamp_double (d : double) : option Z :=
  if double_ltb d (double_of_Z 0) then Some 0
  else if double_ltb (double_of_Z UINT32_MAX) d then Some UINT32_MAX
  else double_to_uint32 d.

(** [v] is the integer part, toward zero, of the non-negative value
    [m * 2^e]: [v <= m * 2^e < v + 1], written without fractions. *)
Definition integer_part_of (v : Z) (m : positive) (e : Z) : Prop :=
  if 0 <=? e then v = Z.pos m * 2 ^ e
  else v * 2 ^ (- e) <= Z.pos m < (v + 1) * 2 ^ (- e).

(** The products the two conversions hand to the narrowing. *)
Definition seconds_product (x : float) : double :=
  double_mul (double_of_float x) (double_of_Z SEC_TO_MILLIS_MULTI).

Definition minutes_product (x : float) : double :=
  double_mul (double_of_float x) (double_of_Z MIN_TO_MILLIS_MULTI).

(** The one call that re-activates a timer without restarting its period. *)
Definition keeps_period (c : call) : bool :=
  match c with
  | CallSetInterval _ r => negb (Bool.eqb TIMER_RESET r)
  | _ => false
  end.

(** The state a sequence of calls leaves behind. *)
Fixpoint run_state (cs : list (Z * call)) (t : Timer) : Timer :=
  match cs with
  | [] => t
  | (now, c) :: cs' => run_state cs' (snd (exec now c t))
  end.

(** The calls that can turn an inactive timer on, the one that writes the
    interval, and the ones that write [mActivated]. *)
Definition activates (c : call) : bool :=
  match c with
  | CallActivate | CallSetInterval _ _ => true
  | _ => false
  end.

Definition sets_interval (c : call) : bool :=
  match c with
  | CallSetInterval _ _ => true
  | _ => false
  end.

Definition sets_activation (c : call) : bool :=
  match c with
  | CallActivate | CallDeactivate | CallSetInterval _ _ => true
  | _ => false
  end.


(** ** examples/main.cpp

    The sketch owns two timers at file scope.  [setup] and [loop] touch only
    [sTimerExample]; every member call reads the clock on its own, so [loop]
    is given the four values it sees, in order. *)

Module MainSketch.

Record globals : Type := mkGlobals {
  sTimerExample : Timer;
  sTimerExampleWithTime : Timer
}.

(** The two definitions at file scope; [None] if a conversion is undefined. *)
Definition init (now : Z) : option globals :=
  match SecToMillis (float_of_Z 5) with
  | Some i => Some {| sTimerExample := Timer_default now;
                      sTimerExampleWithTime := Timer_interval now i |}
  | None => None
  end.

Definition setup (now : Z) (g : globals) : option globals :=
  match MinToMillis (float_of_Z 2) with
  | Some i => Some {| sTimerExample := SetInterval now i TIMER_RESET (sTimerExample g);
                      sTimerExampleWithTime := sTimerExampleWithTime g |}
  | None => None
  end.

(** One pass of [loop]; the result says whether the body of the [if] ran.
    The pass also calls [SecToMillis(123)] and [MinToMillis(123)] and drops
    what they return; they touch no timer and leave no trace here. *)
Definition loop (now_poll now_reset now_off now_on : Z) (g : globals) : bool * globals :=
  let (reached, t1) := IntervalReached now_poll (sTimerExample g) in
  let t2 := ResetInterval now_reset t1 in
  let t3 := Deactivate now_off t2 in
  let t4 := Activate now_on t3 in
  let t5 := OverrideIntervalReached t4 in
  (reached, {| sTimerExample := t5;
               sTimerExampleWithTime := sTimerExampleWithTime g |}).

End MainSketch.

(** ** Exact values of floating-point numbers

    [shl_to prec m] is the mantissa [m] shifted left until it has [prec]
    binary digits, the form in which a format stores a value that it
    represents exactly.  [scaled_integer_part K s m e] is the integer part,
    toward zero, of the value [(-1)^s * m * 2^e] multiplied by [K]. *)

Definition shl_to (prec : Z) (m : positive) : positive :=
  match (prec - Z.pos (digits2_pos m))%Z with
  | Z.pos j => Pos.iter xO m j
  | _ => m
  end.

Definition scaled_integer_part (K : positive) (s : bool) (m : positive) (e : Z) : Z :=
  cond_Zopp s (trunc_mantissa (m * K) e).

(** * Properties *)

(** Range side conditions on the integer types. *)
Ltac range_lia :=
  unfold wf, in_uint64, in_uint32, UINT64_MAX, UINT32_MAX in *; lia.

(** The same at a given timer state. *)
Ltac state_lia :=
  unfold wf, in_uint64, in_uint32, UINT64_MAX, UINT32_MAX;
  cbn [mMillisStartPeriod mMillisInterval mOverrideIntervalReached mActivated
       Timer_interval ResetInterval OverrideIntervalReached set_mActivated];
  lia.

(** ** Helper facts on the state machine *)

Lemma IntervalReached_inactive (now : Z) (t : Timer) :
  mActivated t = false -> IntervalReached now t = (false, t).
Proof.
  intros Hoff. unfold IntervalReached. rewrite Hoff. reflexivity.
Qed.

Lemma IntervalReached_active (now : Z) (t : Timer) :
  mActivated t = true ->
  IntervalReached now t =
    if mOverrideIntervalReached t
       || (wrap64 (mMillisStartPeriod t + mMillisInterval t) <? now)
    then (true, ResetInterval now t) else (false, t).
Proof.
  intros Hon. unfold IntervalReached. rewrite Hon. reflexivity.
Qed.

Lemma wrap64_small (z : Z) : in_uint64 z -> wrap64 z = z.
Proof.
  unfold in_uint64, UINT64_MAX, wrap64. intros Hz.
  apply Z.mod_small. lia.
Qed.

(** With an override pending, an active timer fires at the next poll,
    whatever the clock shows. *)
Lemma OverrideIntervalReached_forces (now : Z) (t : Timer) :
  mActivated t = true ->
  IntervalReached now (OverrideIntervalReached t)
  = (true, ResetInterval now t).
Proof.
  intros Hon. rewrite IntervalReached_active by exact Hon.
  reflexivity.
Qed.

(** Without override an active timer stays silent up to and including the
    instant [start + interval], and fires at every later instant. *)
Lemma IntervalReached_not_after (now : Z) (t : Timer) :
  wf t -> mMillisStartPeriod t + mMillisInterval t <= UINT64_MAX ->
  mActivated t = true -> mOverrideIntervalReached t = false ->
  now <= mMillisStartPeriod t + mMillisInterval t ->
  IntervalReached now t = (false, t).
Proof.
  intros [Hs Hi] Hfit Hon Hov Hle.
  rewrite IntervalReached_active by exact Hon.
  rewrite Hov, wrap64_small by range_lia.
  destruct (Z.ltb_spec (mMillisStartPeriod t + mMillisInterval t) now); [lia|].
  reflexivity.
Qed.

Lemma IntervalReached_after (now : Z) (t : Timer) :
  wf t -> mMillisStartPeriod t + mMillisInterval t <= UINT64_MAX ->
  mActivated t = true ->
  mMillisStartPeriod t + mMillisInterval t < now ->
  IntervalReached now t = (true, ResetInterval now t).
Proof.
  intros [Hs Hi] Hfit Hon Hlt.
  rewrite IntervalReached_active by exact Hon.
  rewrite wrap64_small by range_lia.
  destruct (Z.ltb_spec (mMillisStartPeriod t + mMillisInterval t) now); [|lia].
  rewrite orb_true_r. reflexivity.
Qed.

(** ** The claims on [IntervalReached] *)

(** C1.  On an active timer [IntervalReached] returns true exactly when the
    override is pending or [start + interval], added at 64 bits, is strictly
    below the clock; a true result leaves the period starting at the clock
    value with the override cleared.  (Stated for every active state, with
    or without a pending override.) *)
Theorem IntervalReached_true_iff (now : Z) (t : Timer) :
  mActivated t = true ->
  (fst (IntervalReached now t) = true <->
     (mOverrideIntervalReached t = true
      \/ wrap64 (mMillisStartPeriod t + mMillisInterval t) < now))
  /\ (fst (IntervalReached now t) = true ->
        mMillisStartPeriod (snd (IntervalReached now t)) = now
        /\ mOverrideIntervalReached (snd (IntervalReached now t)) = false).
Proof.
  intros Hon. rewrite IntervalReached_active by exact Hon.
  destruct (mOverrideIntervalReached t) eqn:Hov; cbn [orb].
  - repeat split; cbn; auto.
  - destruct (Z.ltb_spec (wrap64 (mMillisStartPeriod t + mMillisInterval t)) now)
      as [Hlt | Hge]; cbn.
    + repeat split; auto.
    + repeat split; try discriminate; auto.
      intros [Habs | Habs]; [discriminate | lia].
Qed.

Lemma IntervalReached_true_iff_witness :
  mActivated (Timer_interval 0 1000) = true
  /\ fst (IntervalReached 1001 (Timer_interval 0 1000)) = true
  /\ mMillisStartPeriod (snd (IntervalReached 1001 (Timer_interval 0 1000))) = 1001.
Proof.
  split; [reflexivity|].
  destruct (IntervalReached_true_iff 1001 (Timer_interval 0 1000) eq_refl)
    as [Hiff Hreset].
  assert (Hfire : fst (IntervalReached 1001 (Timer_interval 0 1000)) = true).
  { apply Hiff. right. vm_compute. reflexivity. }
  split; [exact Hfire | exact (proj1 (Hreset Hfire))].
Defined.

(** C3.  An inactive timer answers false to every poll of any sequence of
    polls, whatever its other fields and whatever the clock shows, and is
    left as it was. *)
Theorem poll_inactive (clock : list Z) (t : Timer) :
  mActivated t = false ->
  poll clock t = (repeat false (length clock), t).
Proof.
  intros Hoff. induction clock as [|now clock IH]; cbn [poll length repeat].
  - reflexivity.
  - rewrite IntervalReached_inactive by exact Hoff. rewrite IH. reflexivity.
Qed.

Lemma poll_inactive_witness :
  poll [0; 5000; 4294967296; 18446744073709551615]
       (OverrideIntervalReached (Timer_default 7))
  = ([false; false; false; false], OverrideIntervalReached (Timer_default 7)).
Proof.
  exact (poll_inactive [0; 5000; 4294967296; 18446744073709551615]
           (OverrideIntervalReached (Timer_default 7)) eq_refl).
Defined.

(** C10.  A false result of [IntervalReached] leaves the four fields as
    they were, both on an inactive timer and on an active one whose
    interval has not run out. *)
Theorem IntervalReached_false_frame (now : Z) (t : Timer) :
  fst (IntervalReached now t) = false ->
  snd (IntervalReached now t) = t.
Proof.
  unfold IntervalReached.
  destruct (negb (mActivated t)); [reflexivity|].
  destruct (mOverrideIntervalReached t
            || (wrap64 (mMillisStartPeriod t + mMillisInterval t) <? now));
    cbn; [discriminate | reflexivity].
Qed.

Lemma IntervalReached_false_frame_witness :
  snd (IntervalReached 999 (mkTimer 0 1000 false true)) = mkTimer 0 1000 false true.
Proof.
  apply (IntervalReached_false_frame 999 (mkTimer 0 1000 false true)).
  vm_compute. reflexivity.
Defined.

(** ** Resets, activation and the interval *)

(** C4.  Whatever restarts the period ([Activate], [Deactivate],
    [ResetInterval], [SetInterval] with [TIMER_RESET], or an
    [IntervalReached] that returns true) leaves the override cleared, with
    the period starting at the clock value. *)
Theorem restarts_period_clears_override (now : Z) (t t' : Timer) :
  restarts_period now t t' ->
  mOverrideIntervalReached t' = false /\ mMillisStartPeriod t' = now.
Proof.
  intros Hrestart.
  inversion Hrestart as [ | | | i | Hfire]; subst; try (split; reflexivity).
  unfold IntervalReached in *.
  destruct (negb (mActivated t)); [discriminate Hfire|].
  destruct (mOverrideIntervalReached t
            || (wrap64 (mMillisStartPeriod t + mMillisInterval t) <? now));
    [split; reflexivity | discriminate Hfire].
Qed.

Lemma restarts_period_clears_override_witness :
  mOverrideIntervalReached
    (snd (IntervalReached 5 (OverrideIntervalReached (Timer_interval 0 1000)))) = false
  /\ mMillisStartPeriod
    (snd (IntervalReached 5 (OverrideIntervalReached (Timer_interval 0 1000)))) = 5.
Proof.
  apply (restarts_period_clears_override 5
           (OverrideIntervalReached (Timer_interval 0 1000))).
  apply restart_IntervalReached. reflexivity.
Defined.

(** C5.  [SetInterval] stores the interval and leaves the timer active
    whatever it was before; with [TIMER_RESET] the period starts at the
    clock value and the override is cleared, with [TIMER_CONTINUE] the
    period start is kept. *)
Theorem SetInterval_spec (now i : Z) (t : Timer) :
  (forall mode,
      mMillisInterval (SetInterval now i mode t) = i
      /\ mActivated (SetInterval now i mode t) = true)
  /\ mMillisStartPeriod (SetInterval now i TIMER_RESET t) = now
  /\ mOverrideIntervalReached (SetInterval now i TIMER_RESET t) = false
  /\ mMillisStartPeriod (SetInterval now i TIMER_CONTINUE t) = mMillisStartPeriod t.
Proof.
  split; [| repeat split].
  intros [|]; split; reflexivity.
Qed.

(** C9.  [Deactivate] followed by [Activate] at clock value [now] gives the
    state of [Timer(interval)] constructed at [now], so every sequence of
    calls returns the same on both. *)
Theorem Deactivate_Activate_fresh (before now : Z) (t : Timer) :
  Activate now (Deactivate before t) = Timer_interval now (GetInterval t)
  /\ Activate now (Deactivate before t) = mkTimer now (mMillisInterval t) false true
  /\ forall cs,
      run cs (Activate now (Deactivate before t))
      = run cs (Timer_interval now (GetInterval t)).
Proof.
  assert (Heq : Activate now (Deactivate before t)
                = Timer_interval now (GetInterval t)) by reflexivity.
  split; [exact Heq|]. split; [reflexivity|].
  intros cs. rewrite Heq. reflexivity.
Qed.

(** ** Where the code leaves its documentation *)

(** C2.  The poll at exactly [start + interval] returns false: with the
    period started at 0 and an interval of 120000 ms the poll at 120000
    leaves the timer as it was, although the interval has by then been
    reached; the timer fires one millisecond later, and once. *)
Theorem IntervalReached_at_interval_is_false :
  let t := Timer_interval 0 120000 in
  interval_elapsed_documented 120000 t = true
  /\ IntervalReached 120000 t = (false, t)
  /\ IntervalReached 120001 t = (true, Timer_interval 120001 120000)
  /\ poll [0; 119999; 120000; 120001; 120001] t
     = ([false; false; false; true; false], Timer_interval 120001 120000).
Proof.
  cbv zeta. repeat split; vm_compute; reflexivity.
Qed.

(** C6.  An override requested while the timer is inactive survives
    [SetInterval] with [TIMER_CONTINUE]: the next poll returns true, where
    the same calls on a timer that never saw the override return false. *)
Theorem OverrideIntervalReached_inactive_visible :
  let t := Timer_default 0 in
  let cs := [(0, CallSetInterval 1000 TIMER_CONTINUE); (0, CallIntervalReached)] in
  IsActive t = false
  /\ run cs (OverrideIntervalReached t) = [RetVoid; RetBool true]
  /\ run cs t = [RetVoid; RetBool false].
Proof.
  cbv zeta. repeat split; vm_compute; reflexivity.
Qed.

(** What does hold of an override requested on an inactive timer: it stays
    invisible as long as no [SetInterval] with [TIMER_CONTINUE] follows. *)
Lemma exec_override_inactive (now : Z) (c : call) (t : Timer) :
  mActivated t = false -> keeps_period c = false ->
  fst (exec now c (OverrideIntervalReached t)) = fst (exec now c t)
  /\ (snd (exec now c (OverrideIntervalReached t)) = snd (exec now c t)
      \/ (snd (exec now c (OverrideIntervalReached t))
          = OverrideIntervalReached (snd (exec now c t))
          /\ mActivated (snd (exec now c t)) = false)).
Proof.
  intros Hoff Hkeep.
  destruct c as [ | | | | | | i r | | | ]; cbn [exec].
  - rewrite !IntervalReached_inactive by (cbn; exact Hoff). cbn. auto.
  - cbn. auto.
  - cbn. auto.
  - cbn. auto.
  - cbn. auto.
  - cbn. auto.
  - destruct r; [|discriminate Hkeep]. cbn. auto.
  - cbn. auto.
  - cbn. auto.
  - cbn. auto.
Qed.

Lemma run_override_inactive (cs : list (Z * call)) :
  forall t,
    mActivated t = false ->
    forallb (fun nc => negb (keeps_period (snd nc))) cs = true ->
    run cs (OverrideIntervalReached t) = run cs t.
Proof.
  induction cs as [|[now c] cs IH]; intros t Hoff Hall; cbn [run].
  - reflexivity.
  - cbn [forallb snd] in Hall. apply andb_true_iff in Hall as [Hc Hcs].
    apply negb_true_iff in Hc.
    destruct (exec_override_inactive now c t Hoff Hc) as [Hret Hstate].
    destruct (exec now c (OverrideIntervalReached t)) as [r1 t1].
    destruct (exec now c t) as [r2 t2]. cbn [fst snd] in *. subst r1.
    f_equal. destruct Hstate as [-> | [-> Hoff2]]; [reflexivity|].
    apply IH; assumption.
Qed.

(** ** [TimeLeftInMillis] and the narrowing at [uint64_t] *)

Lemma NarrowConvertToUint32_uint64_t (v : Z) :
  in_uint64 v ->
  NarrowConvertToUint32 (T := uint64_t) v = Some (Z.min v UINT32_MAX).
Proof.
  unfold in_uint64, UINT64_MAX. intros Hv.
  unfold NarrowConvertToUint32. cbn [op_lt of_int limits_max of_uint32 to_uint32 Arithmetic_uint64_t].
  change (wrap64 0) with 0. change (UINT64_MAX <? UINT32_MAX) with false.
  unfold UINT32_MAX, wrap32.
  destruct (Z.ltb_spec v 0); [lia|].
  destruct (Z.ltb_spec 4294967295 v).
  - f_equal. lia.
  - f_equal. rewrite Z.mod_small by lia. lia.
Qed.

Lemma wrap64_range (z : Z) : in_uint64 (wrap64 z).
Proof.
  unfold in_uint64, UINT64_MAX, wrap64.
  pose proof (Z.mod_pos_bound z (2 ^ 64) ltac:(lia)). lia.
Qed.

Lemma to_int64_uint32 (i : Z) : in_uint32 i -> to_int64 i = i.
Proof.
  unfold in_uint32, UINT32_MAX, to_int64, wrap64. intros Hi.
  rewrite Z.mod_small by lia.
  destruct (Z.ltb_spec i (2 ^ 63)); lia.
Qed.

(** The value the code computes: the difference taken modulo [2^64], cut
    at the largest [uint32_t]. *)
Lemma TimeLeftInMillis_eq (now : Z) (t : Timer) :
  in_uint32 (mMillisInterval t) ->
  TimeLeftInMillis now t
  = Some (Z.min (wrap64 (mMillisStartPeriod t + mMillisInterval t - now)) UINT32_MAX).
Proof.
  intros Hi. unfold TimeLeftInMillis.
  rewrite NarrowConvertToUint32_uint64_t by apply wrap64_range.
  rewrite to_int64_uint32 by exact Hi.
  rewrite (wrap64_small (mMillisInterval t))
    by range_lia.
  do 2 f_equal. unfold wrap64.
  apply Zminus_mod_idemp_l.
Qed.

(** Up to the end of the period the code returns the documented value. *)
Lemma TimeLeftInMillis_within_period (now : Z) (t : Timer) :
  wf t -> mMillisStartPeriod t + mMillisInterval t <= UINT64_MAX ->
  0 <= now <= mMillisStartPeriod t + mMillisInterval t ->
  TimeLeftInMillis now t = Some (time_left_documented now t).
Proof.
  intros [Hs Hi] Hfit Hnow. rewrite TimeLeftInMillis_eq by exact Hi.
  rewrite wrap64_small by range_lia.
  unfold time_left_documented, clamp_to_u32. f_equal.
  destruct (Z.ltb_spec (mMillisStartPeriod t + mMillisInterval t - now) 0); [lia|].
  destruct (Z.ltb_spec UINT32_MAX (mMillisStartPeriod t + mMillisInterval t - now)); lia.
Qed.

(** Past the end of the period the unsigned difference has wrapped and the
    code never returns 0, where the documented value is 0. *)
Lemma TimeLeftInMillis_past_period (now : Z) (t : Timer) :
  wf t -> in_uint64 now ->
  mMillisStartPeriod t + mMillisInterval t < now ->
  time_left_documented now t = 0
  /\ exists v, TimeLeftInMillis now t = Some v /\ 0 < v
     /\ (now - (mMillisStartPeriod t + mMillisInterval t) <= 2 ^ 64 - 2 ^ 32 ->
         v = UINT32_MAX).
Proof.
  intros [Hs Hi] Hnow Hlt. split.
  - unfold time_left_documented, clamp_to_u32.
    destruct (Z.ltb_spec (mMillisStartPeriod t + mMillisInterval t - now) 0); lia.
  - rewrite TimeLeftInMillis_eq by exact Hi. eexists. split; [reflexivity|].
    unfold in_uint64, in_uint32, UINT64_MAX, UINT32_MAX, wrap64 in *.
    assert (Hw : (mMillisStartPeriod t + mMillisInterval t - now) mod 2 ^ 64
                 = mMillisStartPeriod t + mMillisInterval t - now + 2 ^ 64).
    { symmetry. apply Z.mod_unique_pos with (q := -1); lia. }
    rewrite Hw. split; lia.
Qed.

(** C7.  Past the period boundary [TimeLeftInMillis] does not report 0: with
    the period started at 0, an interval of 1000 ms and the clock at 1001,
    [uint64_t] arithmetic wraps the difference [-1] to [2^64 - 1] and the
    narrowing returns the largest [uint32_t], where the documented clamp of
    [-1] is 0. *)
Theorem TimeLeftInMillis_past_boundary_wraps :
  let t := Timer_interval 0 1000 in
  TimeLeftInMillis 1001 t = Some 4294967295
  /\ time_left_documented 1001 t = 0
  /\ TimeLeftInMillis 1000 t = Some 0
  /\ TimeLeftInMillis 999 t = Some 1.
Proof.
  cbv zeta. repeat split; vm_compute; reflexivity.
Qed.

(** ** The narrowing at [double], [SecToMillis] and [MinToMillis] *)

Lemma double_of_Z_UINT32_MAX :
  double_of_Z UINT32_MAX = S754_finite false 9007199252643840 (-21).
Proof. vm_compute. reflexivity. Qed.

Lemma double_of_Z_0 : double_of_Z 0 = S754_zero false.
Proof. vm_compute. reflexivity. Qed.

(** At [double] the second test of the template is false and the narrowing
    is the three-way clamp. *)
Lemma NarrowConvertToUint32_double (d : double) :
  NarrowConvertToUint32 (T := double) d = saturating_clamp_double d.
Proof.
  unfold NarrowConvertToUint32, saturating_clamp_double.
  cbn [op_lt of_int limits_max of_uint32 to_uint32 Arithmetic_double].
  replace (double_ltb (S754_finite false 9007199254740991 971) (double_of_Z UINT32_MAX))
    with false by (vm_compute; reflexivity).
  reflexivity.
Qed.

(** A value above the largest [uint32_t] is not below zero, so the first
    test of the template does not catch it. *)
Lemma double_above_not_negative (d : double) :
  double_ltb (double_of_Z UINT32_MAX) d = true ->
  double_ltb d (double_of_Z 0) = false.
Proof.
  rewrite double_of_Z_UINT32_MAX, double_of_Z_0.
  unfold double_ltb, SFltb.
  destruct d as [s | s | | s m e]; try destruct s; cbn; congruence.
Qed.

Lemma trunc_mantissa_integer_part (m : positive) (e : Z) :
  integer_part_of (trunc_mantissa m e) m e /\ 0 <= trunc_mantissa m e.
Proof.
  unfold integer_part_of, trunc_mantissa.
  destruct (Z.leb_spec 0 e) as [He | He].
  - split; [reflexivity|]. apply Z.mul_nonneg_nonneg; [lia|].
    apply Z.pow_nonneg; lia.
  - assert (Hpow : 0 < 2 ^ (- e)) by (apply Z.pow_pos_nonneg; lia).
    pose proof (Z.div_mod (Z.pos m) (2 ^ (- e)) ltac:(lia)) as Hdm.
    pose proof (Z.mod_pos_bound (Z.pos m) (2 ^ (- e)) Hpow) as Hmod.
    pose proof (Z.div_pos (Z.pos m) (2 ^ (- e)) ltac:(lia) Hpow) as Hdiv.
    split; [|exact Hdiv]. nia.
Qed.

(** Whatever the narrowing returns at [double] is a [uint32_t]; for a
    positive finite value it is the bound or the integer part. *)
Lemma saturating_clamp_double_range (d : double) (v : Z) :
  saturating_clamp_double d = Some v -> in_uint32 v.
Proof.
  unfold saturating_clamp_double, in_uint32.
  destruct (double_ltb d (double_of_Z 0)).
  { intros [= <-]. unfold UINT32_MAX. lia. }
  destruct (double_ltb (double_of_Z UINT32_MAX) d).
  { intros [= <-]. unfold UINT32_MAX. lia. }
  destruct d as [s | s | | s m e]; cbn [double_to_uint32]; try discriminate.
  - intros [= <-]. unfold UINT32_MAX. lia.
  - destruct s.
    + destruct (trunc_mantissa m e =? 0); [|discriminate].
      intros [= <-]. unfold UINT32_MAX. lia.
    + destruct (Z.leb_spec (trunc_mantissa m e) UINT32_MAX); [|discriminate].
      intros [= <-]. pose proof (trunc_mantissa_integer_part m e). lia.
Qed.

Lemma saturating_clamp_double_positive (m : positive) (e v : Z) :
  saturating_clamp_double (S754_finite false m e) = Some v ->
  v = UINT32_MAX \/ integer_part_of v m e.
Proof.
  unfold saturating_clamp_double.
  rewrite double_of_Z_0. change (double_ltb (S754_finite false m e) (S754_zero false)) with false.
  cbv iota.
  destruct (double_ltb (double_of_Z UINT32_MAX) (S754_finite false m e)).
  { intros [= <-]. left. reflexivity. }
  cbn [double_to_uint32].
  destruct (trunc_mantissa m e <=? UINT32_MAX); [|discriminate].
  intros [= <-]. right. apply trunc_mantissa_integer_part.
Qed.

(** C8.  [SecToMillis] multiplies by 1000 and [MinToMillis] by 60000, at
    [double], and both pass the product through the one saturating clamp:
    a negative product gives 0, a product above the largest [uint32_t]
    gives that bound, any other finite product is cut to its integer part.
    [SecToMillis (5.0) = 5000], [MinToMillis (2.0) = 120000]. *)
Theorem SecToMillis_MinToMillis_clamp :
  (forall x, SecToMillis x = saturating_clamp_double (seconds_product x))
  /\ (forall x, MinToMillis x = saturating_clamp_double (minutes_product x))
  /\ (forall x, double_ltb (seconds_product x) (double_of_Z 0) = true ->
                SecToMillis x = Some 0)
  /\ (forall x, double_ltb (minutes_product x) (double_of_Z 0) = true ->
                MinToMillis x = Some 0)
  /\ (forall x, double_ltb (double_of_Z UINT32_MAX) (seconds_product x) = true ->
                SecToMillis x = Some UINT32_MAX)
  /\ (forall x, double_ltb (double_of_Z UINT32_MAX) (minutes_product x) = true ->
                MinToMillis x = Some UINT32_MAX)
  /\ (forall x v, SecToMillis x = Some v -> in_uint32 v)
  /\ (forall x v, MinToMillis x = Some v -> in_uint32 v)
  /\ (forall x m e v, seconds_product x = S754_finite false m e ->
                      SecToMillis x = Some v ->
                      v = UINT32_MAX \/ integer_part_of v m e)
  /\ (forall x m e v, minutes_product x = S754_finite false m e ->
                      MinToMillis x = Some v ->
                      v = UINT32_MAX \/ integer_part_of v m e)
  /\ SecToMillis (float_of_Z 5) = Some 5000
  /\ MinToMillis (float_of_Z 2) = Some 120000.
Proof.
  assert (Hsec : forall x, SecToMillis x = saturating_clamp_double (seconds_product x))
    by (intros x; apply NarrowConvertToUint32_double).
  assert (Hmin : forall x, MinToMillis x = saturating_clamp_double (minutes_product x))
    by (intros x; apply NarrowConvertToUint32_double).
  repeat match goal with |- _ /\ _ => split end.
  - exact Hsec.
  - exact Hmin.
  - intros x Hneg. rewrite Hsec. unfold saturating_clamp_double.
    rewrite Hneg. reflexivity.
  - intros x Hneg. rewrite Hmin. unfold saturating_clamp_double.
    rewrite Hneg. reflexivity.
  - intros x Habove. rewrite Hsec. unfold saturating_clamp_double.
    rewrite (double_above_not_negative _ Habove), Habove. reflexivity.
  - intros x Habove. rewrite Hmin. unfold saturating_clamp_double.
    rewrite (double_above_not_negative _ Habove), Habove. reflexivity.
  - intros x v. rewrite Hsec. apply saturating_clamp_double_range.
  - intros x v. rewrite Hmin. apply saturating_clamp_double_range.
  - intros x m e v Hprod. rewrite Hsec, Hprod.
    apply saturating_clamp_double_positive.
  - intros x m e v Hprod. rewrite Hmin, Hprod.
    apply saturating_clamp_double_positive.
  - vm_compute. reflexivity.
  - vm_compute. reflexivity.
Qed.

Lemma SecToMillis_MinToMillis_clamp_witness :
  SecToMillis (float_of_Z 5000000) = Some UINT32_MAX
  /\ SecToMillis (float_of_Z (-3)) = Some 0.
Proof.
  pose proof SecToMillis_MinToMillis_clamp
    as (_ & _ & Hneg & _ & Habove & _).
  split.
  - apply Habove. vm_compute. reflexivity.
  - apply Hneg. vm_compute. reflexivity.
Defined.

(** Fractional products: 0.0015 s, 0.0029999 s and -0.0001 s (each rounded
    to [float] first) give 1, 2 and 0; the documented limits of 4294967 s
    and 71582 min are the last whole arguments below saturation. *)
Example SecToMillis_fractions :
  SecToMillis (SFdiv prec32 emax32 (float_of_Z 15) (float_of_Z 10000)) = Some 1
  /\ SecToMillis (SFdiv prec32 emax32 (float_of_Z 29999) (float_of_Z 10000000)) = Some 2
  /\ SecToMillis (SFdiv prec32 emax32 (float_of_Z (-1)) (float_of_Z 10000)) = Some 0
  /\ SecToMillis (float_of_Z 4294967) = Some 4294967000
  /\ SecToMillis (float_of_Z 4294968) = Some UINT32_MAX
  /\ MinToMillis (float_of_Z 71582) = Some 4294920000
  /\ MinToMillis (float_of_Z 71583) = Some UINT32_MAX.
Proof.
  repeat split; vm_compute; reflexivity.
Qed.

(** The conversion [double_to_uint32] is undefined only at NaN once the
    clamp has run: every other value in binary64 format gets a result. *)
Lemma digits2_pos_bound (m : positive) : Z.pos m < 2 ^ Z.pos (digits2_pos m).
Proof.
  induction m as [m IH | m IH |]; cbn [digits2_pos].
  - rewrite Pos2Z.inj_succ, Z.pow_succ_r by lia. lia.
  - rewrite Pos2Z.inj_succ, Z.pow_succ_r by lia. lia.
  - reflexivity.
Qed.

Lemma valid_binary64_mantissa (s : bool) (m : positive) (e : Z) :
  valid_binary prec64 emax64 (S754_finite s m e) = true -> Z.pos m < 2 ^ 53.
Proof.
  unfold valid_binary, bounded, canonical_mantissa, fexp, emin, prec64, emax64.
  intros Hvalid. apply andb_true_iff in Hvalid as [Hcanon _].
  apply Z.eqb_eq in Hcanon.
  pose proof (digits2_pos_bound m) as Hdigits.
  assert (Hle : Z.pos (digits2_pos m) <= 53) by lia.
  pose proof (Z.pow_le_mono_r 2 _ _ ltac:(lia) Hle). lia.
Qed.

Lemma saturating_clamp_double_defined (d : double) :
  valid_binary prec64 emax64 d = true -> d <> S754_nan ->
  exists v, saturating_clamp_double d = Some v.
Proof.
  intros Hvalid Hnan. unfold saturating_clamp_double.
  rewrite double_of_Z_UINT32_MAX, double_of_Z_0.
  destruct d as [s | s | | s m e].
  - exists 0. destruct s; reflexivity.
  - destruct s; [exists 0 | exists UINT32_MAX]; reflexivity.
  - congruence.
  - destruct s; [exists 0; reflexivity|].
    change (double_ltb (S754_finite false m e) (S754_zero false)) with false.
    cbv iota.
    destruct (double_ltb (S754_finite false 9007199252643840 (-21))
                         (S754_finite false m e)) eqn:Hcmp; [eauto|].
    cbn [double_to_uint32].
    assert (Hfit : trunc_mantissa m e <= UINT32_MAX); [|
      destruct (Z.leb_spec (trunc_mantissa m e) UINT32_MAX); [eauto | lia]].
    pose proof (valid_binary64_mantissa _ _ _ Hvalid) as Hm.
    clear Hvalid Hnan.
    unfold double_ltb, SFltb, SFcompare in Hcmp.
    unfold trunc_mantissa, UINT32_MAX.
    destruct (Z.compare_spec (-21) e) as [He | He | He]; try discriminate Hcmp.
    + subst e. change (Pos.compare_cont Eq ?a ?b) with (Pos.compare a b) in Hcmp.
      assert (Hle : Z.pos m <= 9007199252643840).
      { destruct (Pos.compare_spec 9007199252643840 m) as [Heq | Hlt | Hgt];
          try discriminate Hcmp.
        - subst m. apply Z.le_refl.
        - apply Z.lt_le_incl. apply Pos2Z.pos_lt_pos. exact Hgt. }
      clear Hcmp. cbn [Z.leb Z.compare Z.opp].
      apply Z.lt_succ_r. change (Z.succ 4294967295) with 4294967296.
      apply Z.div_lt_upper_bound; [reflexivity | lia].
    + clear Hcmp. destruct (Z.leb_spec 0 e); [lia|].
      assert (Hpow : 2 ^ 22 <= 2 ^ (- e)) by (apply Z.pow_le_mono_r; lia).
      apply Z.lt_succ_r. change (Z.succ 4294967295) with (2 ^ 32).
      apply Z.div_lt_upper_bound; [lia|].
      change (2 ^ 53) with (2 ^ 22 * 2 ^ 31) in Hm. nia.
Qed.

(** * Further properties of the code *)

(** ** Helper facts *)

Lemma IntervalReached_false_unchanged (now : Z) (t : Timer) :
  fst (IntervalReached now t) = false -> snd (IntervalReached now t) = t.
Proof.
  unfold IntervalReached.
  destruct (negb (mActivated t)); [reflexivity|].
  destruct (mOverrideIntervalReached t
            || (wrap64 (mMillisStartPeriod t + mMillisInterval t) <? now));
    cbn; [discriminate | reflexivity].
Qed.

Lemma IntervalReached_true_state (now : Z) (t : Timer) :
  fst (IntervalReached now t) = true ->
  mActivated t = true /\ snd (IntervalReached now t) = ResetInterval now t.
Proof.
  unfold IntervalReached.
  destruct (mActivated t); cbn [negb]; [|discriminate].
  destruct (mOverrideIntervalReached t
            || (wrap64 (mMillisStartPeriod t + mMillisInterval t) <? now));
    cbn; [auto | discriminate].
Qed.

Lemma poll_silent_unchanged (clock : list Z) :
  forall t, fst (poll clock t) = repeat false (length clock) ->
            snd (poll clock t) = t.
Proof.
  induction clock as [|now clock IH]; intros t; cbn [poll length repeat].
  - reflexivity.
  - destruct (IntervalReached now t) as [b t1] eqn:Hpoll.
    destruct (poll clock t1) as [bs t2] eqn:Hrest. cbn [fst snd].
    intros [= -> Hbs].
    pose proof (IntervalReached_false_unchanged now t) as Hsame.
    rewrite Hpoll in Hsame. cbn [fst snd] in Hsame. rewrite Hsame in * by reflexivity.
    specialize (IH t). rewrite Hrest in IH. exact (IH Hbs).
Qed.

Lemma wrap64_to_int64 (z : Z) : wrap64 (to_int64 z) = wrap64 z.
Proof.
  unfold to_int64. pose proof (wrap64_range z) as Hr.
  destruct (wrap64 z <? 2 ^ 63).
  - apply wrap64_small. exact Hr.
  - unfold wrap64 at 1.
    replace (wrap64 z - 2 ^ 64) with (wrap64 z + (-1) * 2 ^ 64) by lia.
    rewrite Z.mod_add by lia. unfold wrap64. apply Z.mod_mod. lia.
Qed.

(** The value [TimePassedInMillis] computes: the difference taken modulo
    [2^64], cut at the largest [uint32_t]. *)
Lemma TimePassedInMillis_eq (now : Z) (t : Timer) :
  TimePassedInMillis now t
  = Some (Z.min (wrap64 (now - mMillisStartPeriod t)) UINT32_MAX).
Proof.
  unfold TimePassedInMillis.
  rewrite NarrowConvertToUint32_uint64_t by apply wrap64_range.
  rewrite wrap64_to_int64. do 2 f_equal. unfold wrap64.
  apply Zminus_mod_idemp_l.
Qed.

Lemma wrap64_diff_zero (a b : Z) :
  wrap64 (a - b) = 0 -> wrap64 a = wrap64 b.
Proof.
  unfold wrap64. intros Hz.
  replace a with ((a - b) + b) at 1 by lia.
  rewrite Zplus_mod, Hz. cbn [Z.add]. apply Z.mod_mod. lia.
Qed.

(** ** The narrowing at [uint64_t] *)

(** X1.  At [uint64_t] the narrowing always has a result: the value itself
    when it is a [uint32_t], the largest [uint32_t] otherwise.  The test
    [value_ < 0] never fires, so 0 is returned for 0 only. *)
Theorem NarrowConvertToUint32_uint64_t_saturates (v : Z) :
  in_uint64 v ->
  exists r, NarrowConvertToUint32 (T := uint64_t) v = Some r
            /\ in_uint32 r
            /\ (v <= UINT32_MAX -> r = v)
            /\ (UINT32_MAX < v -> r = UINT32_MAX)
            /\ (r = 0 -> v = 0).
Proof.
  intros Hv. rewrite NarrowConvertToUint32_uint64_t by exact Hv.
  eexists. split; [reflexivity|]. range_lia.
Qed.

Lemma NarrowConvertToUint32_uint64_t_saturates_witness :
  exists r, NarrowConvertToUint32 (T := uint64_t) 5000000000 = Some r
            /\ in_uint32 r
            /\ (5000000000 <= UINT32_MAX -> r = 5000000000)
            /\ (UINT32_MAX < 5000000000 -> r = UINT32_MAX)
            /\ (r = 0 -> 5000000000 = 0).
Proof.
  apply (NarrowConvertToUint32_uint64_t_saturates 5000000000).
  unfold in_uint64, UINT64_MAX. lia.
Defined.

(** ** [TimePassedInMillis] and [TimeLeftInMillis] *)

(** X2.  With the clock at or past the period start, [TimePassedInMillis]
    is the elapsed time [now - start], cut at the largest [uint32_t]. *)
Theorem TimePassedInMillis_clamped (now : Z) (t : Timer) :
  wf t -> in_uint64 now -> mMillisStartPeriod t <= now ->
  TimePassedInMillis now t
  = Some (clamp_to_u32 (now - mMillisStartPeriod t)).
Proof.
  intros [Hs _] Hnow Hle. rewrite TimePassedInMillis_eq.
  rewrite wrap64_small by range_lia.
  unfold clamp_to_u32. f_equal.
  destruct (Z.ltb_spec (now - mMillisStartPeriod t) 0); [lia|].
  destruct (Z.ltb_spec UINT32_MAX (now - mMillisStartPeriod t)); lia.
Qed.

Lemma TimePassedInMillis_clamped_witness :
  TimePassedInMillis 5000001000 (Timer_interval 1000 60000) = Some UINT32_MAX
  /\ TimePassedInMillis 1250 (Timer_interval 1000 60000) = Some 250.
Proof.
  split.
  - apply (TimePassedInMillis_clamped 5000001000 (Timer_interval 1000 60000));
      state_lia.
  - apply (TimePassedInMillis_clamped 1250 (Timer_interval 1000 60000));
      state_lia.
Defined.

(** X3.  Inside a period, from its start up to and including
    [start + interval], time passed and time left add up to the interval:
    the first counts up from 0 and the second down to 0, a millisecond per
    millisecond. *)
Theorem TimeLeft_plus_TimePassed (now : Z) (t : Timer) :
  wf t -> mMillisStartPeriod t + mMillisInterval t <= UINT64_MAX ->
  mMillisStartPeriod t <= now <= mMillisStartPeriod t + mMillisInterval t ->
  TimePassedInMillis now t = Some (now - mMillisStartPeriod t)
  /\ TimeLeftInMillis now t = Some (mMillisInterval t - (now - mMillisStartPeriod t)).
Proof.
  intros [Hs Hi] Hfit Hnow. split.
  - rewrite TimePassedInMillis_eq, wrap64_small by range_lia.
    f_equal. range_lia.
  - rewrite TimeLeftInMillis_eq by exact Hi.
    rewrite wrap64_small by range_lia. f_equal. range_lia.
Qed.

Lemma TimeLeft_plus_TimePassed_witness :
  TimePassedInMillis 1250 (Timer_interval 1000 60000) = Some (1250 - 1000)
  /\ TimeLeftInMillis 1250 (Timer_interval 1000 60000) = Some (60000 - (1250 - 1000)).
Proof.
  apply (TimeLeft_plus_TimePassed 1250 (Timer_interval 1000 60000));
    state_lia.
Defined.

(** ** Firing *)

(** X4.  A timer that reports no time left has not been reached yet: when
    [TimeLeftInMillis] returns 0 and no override is pending, a poll at the
    same clock value returns false. *)
Theorem TimeLeft_zero_not_reached (now : Z) (t : Timer) :
  wf t -> in_uint64 now ->
  mOverrideIntervalReached t = false ->
  TimeLeftInMillis now t = Some 0 ->
  IntervalReached now t = (false, t).
Proof.
  intros [Hs Hi] Hnow Hov Hleft.
  rewrite TimeLeftInMillis_eq in Hleft by exact Hi.
  assert (Hzero : wrap64 (mMillisStartPeriod t + mMillisInterval t - now) = 0).
  { pose proof (wrap64_range (mMillisStartPeriod t + mMillisInterval t - now)).
    injection Hleft as Hmin. range_lia. }
  apply wrap64_diff_zero in Hzero.
  rewrite (wrap64_small now) in Hzero by exact Hnow.
  unfold IntervalReached. rewrite Hov, Hzero, Z.ltb_irrefl.
  destruct (mActivated t); reflexivity.
Qed.

Lemma TimeLeft_zero_not_reached_witness :
  IntervalReached 61000 (Timer_interval 1000 60000)
  = (false, Timer_interval 1000 60000).
Proof.
  apply (TimeLeft_zero_not_reached 61000 (Timer_interval 1000 60000));
    try state_lia; reflexivity.
Defined.

(** X5.  When [start + interval] does not fit 64 bits the sum wraps, and an
    active timer then fires at every poll from the period start on, however
    little time has passed. *)
Theorem IntervalReached_sum_wraps (now : Z) (t : Timer) :
  wf t -> mActivated t = true ->
  UINT64_MAX < mMillisStartPeriod t + mMillisInterval t ->
  mMillisStartPeriod t <= now ->
  IntervalReached now t = (true, ResetInterval now t).
Proof.
  intros [Hs Hi] Hon Hwrap Hnow.
  rewrite IntervalReached_active by exact Hon.
  assert (Hsum : wrap64 (mMillisStartPeriod t + mMillisInterval t)
                 = mMillisStartPeriod t + mMillisInterval t - 2 ^ 64).
  { unfold wrap64. symmetry. apply Z.mod_unique_pos with (q := 1); range_lia. }
  rewrite Hsum.
  destruct (Z.ltb_spec (mMillisStartPeriod t + mMillisInterval t - 2 ^ 64) now);
    [|range_lia].
  rewrite orb_true_r. reflexivity.
Qed.

Lemma IntervalReached_sum_wraps_witness :
  IntervalReached 18446744073709551000 (Timer_interval 18446744073709551000 1000)
  = (true, ResetInterval 18446744073709551000 (Timer_interval 18446744073709551000 1000)).
Proof.
  apply (IntervalReached_sum_wraps 18446744073709551000
           (Timer_interval 18446744073709551000 1000));
    try state_lia; reflexivity.
Defined.

(** X6.  Two true results are more than an interval apart: after a poll that
    returned true at [now1], if polls at any clock values return false and
    the next one, at [now2], returns true, then [now1 + interval < now2]. *)
Theorem IntervalReached_spacing (now1 now2 : Z) (clock : list Z) (t : Timer) :
  in_uint32 (mMillisInterval t) -> in_uint64 now1 ->
  now1 + mMillisInterval t <= UINT64_MAX ->
  fst (IntervalReached now1 t) = true ->
  fst (poll clock (snd (IntervalReached now1 t))) = repeat false (length clock) ->
  fst (IntervalReached now2 (snd (poll clock (snd (IntervalReached now1 t))))) = true ->
  now1 + mMillisInterval t < now2.
Proof.
  intros Hi Hnow Hfit Hfire Hsilent Hnext.
  rewrite (poll_silent_unchanged _ _ Hsilent) in Hnext.
  destruct (IntervalReached_true_state now1 t Hfire) as [Hon Hstate].
  rewrite Hstate in Hnext.
  unfold IntervalReached in Hnext.
  cbn [ResetInterval mActivated mOverrideIntervalReached mMillisStartPeriod
       mMillisInterval orb] in Hnext.
  rewrite Hon in Hnext. cbn [negb] in Hnext.
  rewrite wrap64_small in Hnext by range_lia.
  destruct (Z.ltb_spec (now1 + mMillisInterval t) now2); [assumption|].
  discriminate Hnext.
Qed.

Lemma IntervalReached_spacing_witness :
  fst (IntervalReached 1001 (Timer_interval 0 1000)) = true
  /\ fst (poll [1001; 1500; 2001] (snd (IntervalReached 1001 (Timer_interval 0 1000))))
     = [false; false; false]
  /\ 1001 + mMillisInterval (Timer_interval 0 1000) < 2002.
Proof.
  split; [reflexivity|]. split; [reflexivity|].
  apply (IntervalReached_spacing 1001 2002 [1001; 1500; 2001] (Timer_interval 0 1000));
    try state_lia; reflexivity.
Defined.




(** X8.  For an interval below the largest [uint32_t], with
    [start + interval] fitting 64 bits, an active timer without override
    fires exactly when [TimePassedInMillis] exceeds [GetInterval]. *)
Theorem IntervalReached_iff_TimePassed (now : Z) (t : Timer) :
  wf t -> in_uint64 now ->
  mActivated t = true -> mOverrideIntervalReached t = false ->
  mMillisStartPeriod t <= now ->
  mMillisStartPeriod t + mMillisInterval t <= UINT64_MAX ->
  GetInterval t < UINT32_MAX ->
  (fst (IntervalReached now t) = true
   <-> exists p, TimePassedInMillis now t = Some p /\ GetInterval t < p).
Proof.
  unfold GetInterval. intros [Hs Hi] Hnow Hon Hov Hle Hfit Hmax.
  rewrite IntervalReached_active by exact Hon.
  rewrite Hov, TimePassedInMillis_eq. cbn [orb].
  rewrite !wrap64_small by range_lia.
  destruct (Z.ltb_spec (mMillisStartPeriod t + mMillisInterval t) now) as [Hlt | Hge];
    cbn [fst]; split.
  - intros _. eexists. split; [reflexivity | range_lia].
  - reflexivity.
  - discriminate.
  - intros [p [[= <-] Hp]]. range_lia.
Qed.

Lemma IntervalReached_iff_TimePassed_witness :
  fst (IntervalReached 2001 (Timer_interval 1000 1000)) = true
  <-> exists p, TimePassedInMillis 2001 (Timer_interval 1000 1000) = Some p
                /\ GetInterval (Timer_interval 1000 1000) < p.
Proof.
  apply (IntervalReached_iff_TimePassed 2001 (Timer_interval 1000 1000));
    try state_lia; reflexivity.
Defined.

(** ** Sequences of calls *)

Lemma exec_inactive_silent (now : Z) (c : call) (t : Timer) :
  mActivated t = false -> activates c = false ->
  mActivated (snd (exec now c t)) = false
  /\ forall b, fst (exec now c t) = RetBool b -> b = false.
Proof.
  intros Hoff Hc.
  destruct c as [ | | | | | | i r | | | ]; cbn [exec activates] in *;
    try discriminate Hc.
  - rewrite IntervalReached_inactive by exact Hoff. cbn.
    split; [exact Hoff | intros b [= <-]; reflexivity].
  - cbn. split; [exact Hoff | discriminate].
  - cbn. split; [exact Hoff | discriminate].
  - cbn. split; [reflexivity | discriminate].
  - cbn. unfold IsActive. split; [exact Hoff | intros b [= <-]; exact Hoff].
  - cbn. split; [exact Hoff | discriminate].
  - cbn. split; [exact Hoff | discriminate].
  - cbn. split; [exact Hoff | discriminate].
Qed.

(** X9.  An inactive timer stays silent until [Activate] or [SetInterval]
    is called: in a sequence of any other calls, at any clock values, every
    [IntervalReached] and every [IsActive] returns false. *)
Theorem run_inactive_silent (cs : list (Z * call)) :
  forall t,
    mActivated t = false ->
    forallb (fun nc => negb (activates (snd nc))) cs = true ->
    forall b, In (RetBool b) (run cs t) -> b = false.
Proof.
  induction cs as [|[now c] cs IH]; intros t Hoff Hall b Hin; cbn [run] in Hin.
  - destruct Hin.
  - cbn [forallb snd] in Hall. apply andb_true_iff in Hall as [Hc Hcs].
    apply negb_true_iff in Hc.
    destruct (exec_inactive_silent now c t Hoff Hc) as [Hoff' Hret].
    destruct (exec now c t) as [r t'] eqn:Hexec. cbn [fst snd] in *.
    destruct Hin as [Hhead | Htail].
    + apply Hret. exact Hhead.
    + exact (IH t' Hoff' Hcs b Htail).
Qed.

Lemma run_inactive_silent_witness :
  Forall (fun r => r <> RetBool true)
         (run [(10, CallOverrideIntervalReached); (20, CallIntervalReached);
               (30, CallResetInterval); (5000000000, CallIntervalReached);
               (5000000001, CallIsActive); (5000000002, CallDeactivate);
               (18446744073709551615, CallIntervalReached)]
              (Timer_default 0)).
Proof.
  apply Forall_forall. intros r Hin ->.
  discriminate (run_inactive_silent
                  [(10, CallOverrideIntervalReached); (20, CallIntervalReached);
                   (30, CallResetInterval); (5000000000, CallIntervalReached);
                   (5000000001, CallIsActive); (5000000002, CallDeactivate);
                   (18446744073709551615, CallIntervalReached)]
                  (Timer_default 0) eq_refl eq_refl true Hin).
Defined.




(** X11.  Only [SetInterval] changes the interval, and only [Activate],
    [Deactivate] and [SetInterval] change whether the timer is active:
    polls, resets and overrides leave both as they were. *)
Theorem run_state_frame (cs : list (Z * call)) :
  forall t,
    (forallb (fun nc => negb (sets_interval (snd nc))) cs = true ->
     GetInterval (run_state cs t) = GetInterval t)
    /\ (forallb (fun nc => negb (sets_activation (snd nc))) cs = true ->
        IsActive (run_state cs t) = IsActive t).
Proof.
  induction cs as [|[now c] cs IH]; intros t; cbn [run_state forallb snd].
  - split; reflexivity.
  - destruct (IH (snd (exec now c t))) as [IHi IHa].
    assert (Hstep : (sets_interval c = false ->
                     GetInterval (snd (exec now c t)) = GetInterval t)
                    /\ (sets_activation c = false ->
                        IsActive (snd (exec now c t)) = IsActive t)).
    { destruct c as [ | | | | | | i r | | | ];
        cbn [exec sets_interval sets_activation];
        try (split; intros; first [discriminate | reflexivity]).
      unfold IntervalReached.
      destruct (negb (mActivated t)); [split; reflexivity|].
      destruct (mOverrideIntervalReached t
                || (wrap64 (mMillisStartPeriod t + mMillisInterval t) <? now));
        split; reflexivity. }
    destruct Hstep as [Hi Ha]. split; intros Hall;
      apply andb_true_iff in Hall as [Hc Hcs]; apply negb_true_iff in Hc.
    + rewrite (IHi Hcs). exact (Hi Hc).
    + rewrite (IHa Hcs). exact (Ha Hc).
Qed.

Lemma run_state_frame_witness :
  GetInterval (run_state [(1500, CallIntervalReached); (1600, CallDeactivate);
                          (1700, CallOverrideIntervalReached); (1800, CallActivate)]
                         (Timer_interval 0 1000)) = 1000
  /\ IsActive (run_state [(1500, CallIntervalReached); (1600, CallResetInterval);
                          (1700, CallOverrideIntervalReached)]
                         (Timer_default 0)) = false.
Proof.
  split.
  - apply (run_state_frame [(1500, CallIntervalReached); (1600, CallDeactivate);
                            (1700, CallOverrideIntervalReached); (1800, CallActivate)]
                           (Timer_interval 0 1000)). reflexivity.
  - apply (run_state_frame [(1500, CallIntervalReached); (1600, CallResetInterval);
                            (1700, CallOverrideIntervalReached)]
                           (Timer_default 0)). reflexivity.
Defined.

(** ** examples/main.cpp *)

(** X12.  In the sketch every pass of [loop] ends with [Activate] followed
    by [OverrideIntervalReached], so from the second pass on
    [IntervalReached] is true in every pass, whatever the clock shows;
    [sTimerExampleWithTime] and the interval of [sTimerExample] are never
    touched. *)
Theorem loop_fires_every_pass (a1 a2 a3 a4 b1 b2 b3 b4 : Z) (g : MainSketch.globals) :
  let g1 := snd (MainSketch.loop a1 a2 a3 a4 g) in
  let g2 := snd (MainSketch.loop b1 b2 b3 b4 g1) in
  fst (MainSketch.loop b1 b2 b3 b4 g1) = true
  /\ MainSketch.sTimerExample g2
     = OverrideIntervalReached
         (Timer_interval b4 (GetInterval (MainSketch.sTimerExample g)))
  /\ MainSketch.sTimerExampleWithTime g2 = MainSketch.sTimerExampleWithTime g.
Proof.
  cbv zeta. unfold MainSketch.loop.
  destruct (IntervalReached a1 (MainSketch.sTimerExample g)) as [ra ta] eqn:Ha.
  cbn [snd MainSketch.sTimerExample MainSketch.sTimerExampleWithTime].
  assert (Hta : mMillisInterval ta = mMillisInterval (MainSketch.sTimerExample g)).
  { revert Ha. unfold IntervalReached.
    destruct (negb (mActivated (MainSketch.sTimerExample g))); [intros [= _ <-]; reflexivity|].
    destruct (mOverrideIntervalReached (MainSketch.sTimerExample g)
              || (wrap64 (mMillisStartPeriod (MainSketch.sTimerExample g)
                          + mMillisInterval (MainSketch.sTimerExample g)) <? a1));
      intros [= _ <-]; reflexivity. }
  rewrite OverrideIntervalReached_forces by reflexivity.
  cbn [fst snd MainSketch.sTimerExample MainSketch.sTimerExampleWithTime].
  unfold GetInterval. rewrite <- Hta.
  repeat split.
Qed.

(** After [setup] the example timer is the timer [Timer(120000)] would be,
    and the timer with a time is [Timer(5000)]. *)
Lemma setup_state (boot now : Z) :
  option_map MainSketch.sTimerExample
    (match MainSketch.init boot with
     | Some g => MainSketch.setup now g
     | None => None
     end) = Some (Timer_interval now 120000)
  /\ option_map MainSketch.sTimerExampleWithTime (MainSketch.init boot)
     = Some (Timer_interval boot 5000).
Proof.
  unfold MainSketch.init, MainSketch.setup.
  replace (SecToMillis (float_of_Z 5)) with (Some 5000) by (vm_compute; reflexivity).
  replace (MinToMillis (float_of_Z 2)) with (Some 120000) by (vm_compute; reflexivity).
  split; reflexivity.
Qed.

(** ** [SecToMillis] and [MinToMillis] on the values of [float]

    The conversion to [double], the product and the narrowing are followed
    through IEEE-754 rounding: each step is exact. *)

Lemma iter_pos_Pos_iter {A : Type} (f : A -> A) (p : positive) :
  forall x, iter_pos f p x = Pos.iter f x p.
Proof.
  induction p as [p IH | p IH |]; intros x; cbn [iter_pos Pos.iter].
  - rewrite !IH. rewrite <- !Pos.iter_swap. reflexivity.
  - rewrite !IH. reflexivity.
  - reflexivity.
Qed.

Lemma Pos_iter_xO_Z (m j : positive) :
  Z.pos (Pos.iter xO m j) = Z.pos m * 2 ^ Z.pos j.
Proof.
  induction j as [|j IH] using Pos.peano_ind.
  - cbn [Pos.iter]. lia.
  - rewrite Pos.iter_succ, Pos2Z.inj_succ, Z.pow_succ_r by lia.
    rewrite Pos2Z.inj_xO, IH. lia.
Qed.

Lemma Pos_iter_xO_digits (m j : positive) :
  Z.pos (digits2_pos (Pos.iter xO m j)) = Z.pos (digits2_pos m) + Z.pos j.
Proof.
  induction j as [|j IH] using Pos.peano_ind.
  - cbn [Pos.iter digits2_pos]. lia.
  - rewrite Pos.iter_succ. cbn [digits2_pos]. lia.
Qed.

Lemma shr_1_exact (q j : positive) :
  iter_pos shr_1 j (Build_shr_record (Z.pos (Pos.iter xO q j)) false false)
  = Build_shr_record (Z.pos q) false false.
Proof.
  rewrite iter_pos_Pos_iter.
  induction j as [|j IH] using Pos.peano_ind.
  - reflexivity.
  - rewrite !Pos.iter_succ. rewrite <- Pos.iter_swap. cbn [shr_1 orb].
    exact IH.
Qed.

Section Rounding.

Variables prec emax : Z.

Lemma binary_round_aux_noshift (s : bool) (q : positive) (e : Z) :
  Z.pos (digits2_pos q) = prec ->
  3 - emax - prec <= e <= emax - prec ->
  binary_round_aux prec emax s (Z.pos q) e loc_Exact = S754_finite s q e.
Proof.
  intros Hd He. unfold binary_round_aux, shr_fexp.
  cbn [Zdigits2 shr_record_of_loc].
  assert (Hshift : fexp prec emax (Z.pos (digits2_pos q) + e) - e = 0).
  { unfold fexp, emin. lia. }
  rewrite Hshift. cbn [shr shr_m loc_of_shr_record round_nearest_even Zdigits2 shr_record_of_loc].
  rewrite Hshift. cbn [shr shr_m].
  destruct (Z.leb_spec e (emax - prec)); [reflexivity | lia].
Qed.

Lemma binary_round_aux_shift (s : bool) (q j : positive) (e : Z) :
  Z.pos (digits2_pos q) = prec ->
  3 - emax - prec <= e + Z.pos j <= emax - prec ->
  binary_round_aux prec emax s (Z.pos (Pos.iter xO q j)) e loc_Exact
  = S754_finite s q (e + Z.pos j).
Proof.
  intros Hd He. unfold binary_round_aux, shr_fexp.
  cbn [Zdigits2 shr_record_of_loc].
  assert (Hshift : fexp prec emax (Z.pos (digits2_pos (Pos.iter xO q j)) + e) - e = Z.pos j).
  { rewrite Pos_iter_xO_digits. unfold fexp, emin. lia. }
  rewrite Hshift. cbn [shr]. rewrite shr_1_exact.
  cbn [shr_m loc_of_shr_record round_nearest_even Zdigits2 shr_record_of_loc].
  assert (Hstay : fexp prec emax (Z.pos (digits2_pos q) + (e + Z.pos j)) - (e + Z.pos j) = 0).
  { unfold fexp, emin. lia. }
  rewrite Hstay. cbn [shr shr_m].
  destruct (Z.leb_spec (e + Z.pos j) (emax - prec)); [reflexivity | lia].
Qed.

End Rounding.

Lemma digits2_pos_lower (m : positive) :
  2 ^ (Z.pos (digits2_pos m) - 1) <= Z.pos m.
Proof.
  induction m as [m IH | m IH |]; cbn [digits2_pos].
  - rewrite Pos2Z.inj_succ.
    replace (Z.succ (Z.pos (digits2_pos m)) - 1) with (Z.succ (Z.pos (digits2_pos m) - 1)) by lia.
    rewrite Z.pow_succ_r by lia. lia.
  - rewrite Pos2Z.inj_succ.
    replace (Z.succ (Z.pos (digits2_pos m)) - 1) with (Z.succ (Z.pos (digits2_pos m) - 1)) by lia.
    rewrite Z.pow_succ_r by lia. lia.
  - reflexivity.
Qed.

Lemma digits2_pos_le (m : positive) (a : Z) :
  0 <= a -> Z.pos m < 2 ^ a -> Z.pos (digits2_pos m) <= a.
Proof.
  intros Ha Hm. pose proof (digits2_pos_lower m) as Hlow.
  assert (Hlt : 2 ^ (Z.pos (digits2_pos m) - 1) < 2 ^ a) by lia.
  apply Z.pow_lt_mono_r_iff in Hlt; lia.
Qed.

Lemma digits2_pos_gt (m : positive) (a : Z) :
  0 <= a -> 2 ^ a <= Z.pos m -> a < Z.pos (digits2_pos m).
Proof.
  intros Ha Hm. pose proof (digits2_pos_bound m) as Hup.
  assert (Hlt : 2 ^ a < 2 ^ Z.pos (digits2_pos m)) by lia.
  apply Z.pow_lt_mono_r_iff in Hlt; lia.
Qed.

Lemma shl_to_Z (prec : Z) (m : positive) :
  Z.pos (digits2_pos m) <= prec ->
  Z.pos (shl_to prec m) = Z.pos m * 2 ^ (prec - Z.pos (digits2_pos m)).
Proof.
  intros Hd. unfold shl_to.
  destruct (prec - Z.pos (digits2_pos m)) as [|j|j] eqn:Hj.
  - lia.
  - apply Pos_iter_xO_Z.
  - lia.
Qed.

Lemma shl_to_digits (prec : Z) (m : positive) :
  Z.pos (digits2_pos m) <= prec ->
  Z.pos (digits2_pos (shl_to prec m)) = prec.
Proof.
  intros Hd. unfold shl_to.
  destruct (prec - Z.pos (digits2_pos m)) as [|j|j] eqn:Hj.
  - lia.
  - rewrite Pos_iter_xO_digits. lia.
  - lia.
Qed.

Lemma binary_round_exact (prec emax : Z) (s : bool) (m : positive) (e : Z) :
  Z.pos (digits2_pos m) <= prec ->
  3 - emax - prec <= Z.pos (digits2_pos m) + e - prec ->
  Z.pos (digits2_pos m) + e <= emax ->
  binary_round prec emax s m e
  = S754_finite s (shl_to prec m) (Z.pos (digits2_pos m) + e - prec).
Proof.
  intros Hd Hlow Hup. unfold binary_round, shl_align.
  assert (Hfexp : fexp prec emax (Z.pos (digits2_pos m) + e)
                  = Z.pos (digits2_pos m) + e - prec).
  { unfold fexp, emin. lia. }
  rewrite Hfexp.
  pose proof (shl_to_digits prec m Hd) as Hfull. unfold shl_to in *.
  replace (Z.pos (digits2_pos m) + e - prec - e)
    with (- (prec - Z.pos (digits2_pos m))) by lia.
  destruct (prec - Z.pos (digits2_pos m)) as [|j|j] eqn:Hj; cbn [Z.opp].
  - rewrite binary_round_aux_noshift by (try exact Hfull; lia).
    f_equal. lia.
  - apply binary_round_aux_noshift; [exact Hfull | lia].
  - lia.
Qed.


Lemma double_of_float_finite (s : bool) (m : positive) (e : Z) :
  Z.pos m < 2 ^ 24 -> -149 <= e <= 104 ->
  double_of_float (S754_finite s m e)
  = S754_finite s (shl_to 53 m) (Z.pos (digits2_pos m) + e - 53).
Proof.
  intros Hm He.
  assert (Hd : Z.pos (digits2_pos m) <= 24) by (apply digits2_pos_le; lia).
  unfold double_of_float, prec64, emax64.
  apply binary_round_exact; lia.
Qed.

Lemma double_of_Z_pos (K : positive) :
  Z.pos K < 2 ^ 16 ->
  double_of_Z (Z.pos K)
  = S754_finite false (shl_to 53 K) (Z.pos (digits2_pos K) - 53).
Proof.
  intros HK.
  assert (Hd : Z.pos (digits2_pos K) <= 16) by (apply digits2_pos_le; lia).
  unfold double_of_Z, binary_normalize, prec64, emax64.
  rewrite binary_round_exact by lia. f_equal; lia.
Qed.

Lemma digits2_pos_mul (m K : positive) :
  Z.pos (digits2_pos m) + Z.pos (digits2_pos K) - 1
  <= Z.pos (digits2_pos (m * K))
  <= Z.pos (digits2_pos m) + Z.pos (digits2_pos K).
Proof.
  pose proof (digits2_pos_lower m) as Hm. pose proof (digits2_pos_lower K) as HK.
  pose proof (digits2_pos_bound m) as Hm'. pose proof (digits2_pos_bound K) as HK'.
  set (k := Z.pos (digits2_pos m)) in *. set (dK := Z.pos (digits2_pos K)) in *.
  assert (Hk : 1 <= k) by (unfold k; lia).
  assert (HdK : 1 <= dK) by (unfold dK; lia).
  split.
  - assert (Hlow : 2 ^ (k + dK - 2) <= Z.pos (m * K)).
    { replace (k + dK - 2) with ((k - 1) + (dK - 1)) by lia.
      rewrite Z.pow_add_r, Pos2Z.inj_mul by lia.
      apply Z.mul_le_mono_nonneg; try assumption; apply Z.pow_nonneg; lia. }
    apply digits2_pos_gt in Hlow; lia.
  - apply digits2_pos_le; [lia|].
    rewrite Z.pow_add_r, Pos2Z.inj_mul by lia.
    apply Z.mul_lt_mono_nonneg; lia.
Qed.

Lemma double_mul_finite (s : bool) (m K : positive) (e : Z) :
  Z.pos m < 2 ^ 24 -> -149 <= e <= 104 -> Z.pos K < 2 ^ 16 ->
  double_mul (double_of_float (S754_finite s m e)) (double_of_Z (Z.pos K))
  = S754_finite s (shl_to 53 (m * K)) (Z.pos (digits2_pos (m * K)) + e - 53).
Proof.
  intros Hm He HK.
  rewrite double_of_float_finite, double_of_Z_pos by assumption.
  unfold double_mul, SFmul. rewrite xorb_false_r.
  pose proof (digits2_pos_mul m K) as Hd.
  assert (Hk : Z.pos (digits2_pos m) <= 24) by (apply digits2_pos_le; lia).
  assert (HdK : Z.pos (digits2_pos K) <= 16) by (apply digits2_pos_le; lia).
  set (k := Z.pos (digits2_pos m)) in *.
  set (dK := Z.pos (digits2_pos K)) in *.
  set (d := Z.pos (digits2_pos (m * K))) in *.
  destruct (53 + d - k - dK) as [|J|J] eqn:HJeq; try lia.
  assert (Hprod : (shl_to 53 m * shl_to 53 K)%positive
                  = Pos.iter xO (shl_to 53 (m * K)) J).
  { apply Pos2Z.inj. rewrite Pos2Z.inj_mul, Pos_iter_xO_Z.
    rewrite !shl_to_Z by (fold k dK d; lia). fold k dK d.
    rewrite <- HJeq, Pos2Z.inj_mul.
    assert (Hpow : 2 ^ (53 - k) * 2 ^ (53 - dK)
                   = 2 ^ (53 - d) * 2 ^ (53 + d - k - dK)).
    { rewrite <- (Z.pow_add_r 2 (53 - k)), <- (Z.pow_add_r 2 (53 - d)) by lia.
      f_equal. lia. }
    replace (Z.pos m * 2 ^ (53 - k) * (Z.pos K * 2 ^ (53 - dK)))
      with (Z.pos m * Z.pos K * (2 ^ (53 - k) * 2 ^ (53 - dK))) by ring.
    rewrite Hpow. ring. }
  rewrite Hprod.
  rewrite binary_round_aux_shift.
  - f_equal. lia.
  - apply shl_to_digits. unfold prec64. fold d. lia.
  - unfold prec64, emax64. lia.
Qed.

Lemma clamp_to_u32_above (z : Z) : UINT32_MAX <= z -> clamp_to_u32 z = UINT32_MAX.
Proof.
  unfold clamp_to_u32, UINT32_MAX. intros Hz.
  destruct (Z.ltb_spec z 0); [lia|].
  destruct (Z.ltb_spec 4294967295 z); lia.
Qed.

Lemma clamp_to_u32_within (z : Z) : 0 <= z <= UINT32_MAX -> clamp_to_u32 z = z.
Proof.
  unfold clamp_to_u32, UINT32_MAX. intros Hz.
  destruct (Z.ltb_spec z 0); [lia|].
  destruct (Z.ltb_spec 4294967295 z); lia.
Qed.

Lemma clamp_to_u32_below (z : Z) : z <= 0 -> clamp_to_u32 z = 0.
Proof.
  unfold clamp_to_u32, UINT32_MAX. intros Hz.
  destruct (Z.ltb_spec z 0); [lia|].
  destruct (Z.ltb_spec 4294967295 z); lia.
Qed.

(** Truncating the normalised mantissa gives the integer part of the value. *)
Lemma trunc_mantissa_shl_to (P : positive) (e : Z) :
  Z.pos (digits2_pos P) + e - 53 < 0 -> Z.pos (digits2_pos P) <= 53 ->
  trunc_mantissa (shl_to 53 P) (Z.pos (digits2_pos P) + e - 53)
  = trunc_mantissa P e.
Proof.
  intros Hneg Hd. unfold trunc_mantissa. rewrite shl_to_Z by exact Hd.
  set (d := Z.pos (digits2_pos P)) in *.
  destruct (Z.leb_spec 0 (d + e - 53)); [lia|].
  replace (- (d + e - 53)) with (53 - d - e) by lia.
  destruct (Z.leb_spec 0 e) as [He | He].
  - remember (53 - d - e) as c eqn:Hc.
    replace (53 - d) with (e + c) by lia.
    rewrite Z.pow_add_r, Z.mul_assoc by lia.
    apply Z.div_mul. apply Z.pow_nonzero; lia.
  - replace (53 - d - e) with (- e + (53 - d)) by lia.
    rewrite Z.pow_add_r by lia.
    apply Z.div_mul_cancel_r; apply Z.pow_nonzero; lia.
Qed.

(** A value of at least [2^a] has an integer part of at least [2^a]. *)
Lemma trunc_mantissa_lower (P : positive) (e a : Z) :
  0 <= a -> a + 1 <= Z.pos (digits2_pos P) + e ->
  2 ^ a <= trunc_mantissa P e.
Proof.
  intros Ha Hd. pose proof (digits2_pos_lower P) as Hlow.
  set (d := Z.pos (digits2_pos P)) in *.
  assert (Hd1 : 1 <= d) by (unfold d; lia).
  unfold trunc_mantissa. destruct (Z.leb_spec 0 e) as [He | He].
  - apply Z.le_trans with (2 ^ (d - 1) * 2 ^ e).
    + rewrite <- Z.pow_add_r by lia. apply Z.pow_le_mono_r; lia.
    + apply Z.mul_le_mono_nonneg_r; [apply Z.pow_nonneg; lia | exact Hlow].
  - apply Z.div_le_lower_bound; [apply Z.pow_pos_nonneg; lia|].
    rewrite <- Z.pow_add_r by lia.
    apply Z.le_trans with (2 ^ (d - 1)); [apply Z.pow_le_mono_r; lia | exact Hlow].
Qed.

Lemma saturating_clamp_finite (s : bool) (P : positive) (e : Z) :
  Z.pos (digits2_pos P) <= 53 -> -149 <= e <= 104 ->
  saturating_clamp_double
    (S754_finite s (shl_to 53 P) (Z.pos (digits2_pos P) + e - 53))
  = Some (clamp_to_u32 (cond_Zopp s (trunc_mantissa P e))).
Proof.
  intros Hd He.
  pose proof (trunc_mantissa_integer_part P e) as [_ HV].
  unfold saturating_clamp_double.
  rewrite double_of_Z_UINT32_MAX, double_of_Z_0.
  destruct s; cbn [cond_Zopp].
  { rewrite clamp_to_u32_below by lia. reflexivity. }
  pose proof (shl_to_Z 53 P Hd) as HQ.
  pose proof (shl_to_digits 53 P Hd) as HdQ.
  pose proof (digits2_pos_bound (shl_to 53 P)) as HQup. rewrite HdQ in HQup.
  pose proof (trunc_mantissa_shl_to P e) as Htrunc.
  pose proof (trunc_mantissa_lower P e 32 ltac:(lia)) as Hbig.
  set (d := Z.pos (digits2_pos P)) in *. set (Q := shl_to 53 P) in *.
  set (V := trunc_mantissa P e) in *. clearbody V. clear HdQ.
  change (double_ltb (S754_finite false Q (d + e - 53)) (S754_zero false)) with false.
  cbv iota.
  destruct (double_ltb (S754_finite false 9007199252643840 (-21))
                       (S754_finite false Q (d + e - 53))) eqn:Hcmp.
  - f_equal. symmetry. apply clamp_to_u32_above.
    unfold double_ltb, SFltb, SFcompare in Hcmp.
    destruct (Z.compare_spec (-21) (d + e - 53)) as [Heq | Hlt | Hgt];
      try discriminate Hcmp.
    + change (Pos.compare_cont Eq ?a ?b) with (Pos.compare a b) in Hcmp.
      assert (Hm0 : 9007199252643840 < Z.pos Q).
      { destruct (Pos.compare_spec 9007199252643840 Q) as [? | Hlt | ?];
          try discriminate Hcmp.
        apply Pos2Z.pos_lt_pos. exact Hlt. }
      clear Hcmp. unfold UINT32_MAX.
      assert (Hneg : d + e - 53 < 0) by lia.
      specialize (Htrunc Hneg Hd). unfold trunc_mantissa in Htrunc.
      destruct (Z.leb_spec 0 (d + e - 53)); [lia|].
      replace (- (d + e - 53)) with 21 in Htrunc by lia.
      rewrite <- Htrunc.
      apply Z.div_le_lower_bound; [reflexivity|].
      change (2 ^ 21 * 4294967295) with 9007199252643840. lia.
    + clear Hcmp. unfold UINT32_MAX.
      assert (H32 : 2 ^ 32 <= V) by (apply Hbig; lia).
      change (2 ^ 32) with 4294967296 in H32. lia.
  - assert (Hle : d + e - 53 <= -21).
    { unfold double_ltb, SFltb, SFcompare in Hcmp.
      destruct (Z.compare_spec (-21) (d + e - 53)); try discriminate Hcmp; lia. }
    clear Hcmp. cbn [double_to_uint32].
    rewrite Htrunc by lia.
    assert (HVup : V < 2 ^ 32).
    { rewrite <- Htrunc by lia. unfold trunc_mantissa.
      destruct (Z.leb_spec 0 (d + e - 53)); [lia|].
      apply Z.div_lt_upper_bound; [apply Z.pow_pos_nonneg; lia|].
      rewrite <- Z.pow_add_r by lia.
      apply Z.lt_le_trans with (2 ^ 53); [exact HQup|].
      apply Z.pow_le_mono_r; lia. }
    change (2 ^ 32) with 4294967296 in HVup.
    destruct (Z.leb_spec V UINT32_MAX) as [HU | HU]; [|unfold UINT32_MAX in HU; lia].
    rewrite clamp_to_u32_within by lia. reflexivity.
Qed.

Lemma valid_binary32_bounds (s : bool) (m : positive) (e : Z) :
  valid_binary prec32 emax32 (S754_finite s m e) = true ->
  Z.pos m < 2 ^ 24 /\ -149 <= e <= 104.
Proof.
  unfold valid_binary, bounded, canonical_mantissa, fexp, emin, prec32, emax32.
  intros Hvalid. apply andb_true_iff in Hvalid as [Hcanon Hmax].
  apply Z.eqb_eq in Hcanon. apply Z.leb_le in Hmax.
  pose proof (digits2_pos_bound m) as Hdigits.
  assert (Hle : Z.pos (digits2_pos m) <= 24) by lia.
  pose proof (Z.pow_le_mono_r 2 _ _ ltac:(lia) Hle). lia.
Qed.

Lemma narrow_product_finite (K : positive) (s : bool) (m : positive) (e : Z) :
  Z.pos K < 2 ^ 16 -> Z.pos m < 2 ^ 24 -> -149 <= e <= 104 ->
  NarrowConvertToUint32 (T := double)
    (double_mul (double_of_float (S754_finite s m e)) (double_of_Z (Z.pos K)))
  = Some (clamp_to_u32 (scaled_integer_part K s m e)).
Proof.
  intros HK Hm He.
  rewrite NarrowConvertToUint32_double, double_mul_finite by assumption.
  apply saturating_clamp_finite; [|exact He].
  pose proof (digits2_pos_mul m K).
  assert (Z.pos (digits2_pos m) <= 24) by (apply digits2_pos_le; lia).
  assert (Z.pos (digits2_pos K) <= 16) by (apply digits2_pos_le; lia).
  lia.
Qed.

(** X13.  On every finite [float] value [(-1)^s * m * 2^e] the two
    conversions are exact: the result is the integer part, toward zero, of
    the value times 1000 (times 60000), clamped to [uint32_t].  No rounding
    happens on the way. *)
Theorem SecToMillis_MinToMillis_finite (s : bool) (m : positive) (e : Z) :
  valid_binary prec32 emax32 (S754_finite s m e) = true ->
  SecToMillis (S754_finite s m e)
  = Some (clamp_to_u32 (scaled_integer_part 1000 s m e))
  /\ MinToMillis (S754_finite s m e)
     = Some (clamp_to_u32 (scaled_integer_part 60000 s m e)).
Proof.
  intros Hvalid. apply valid_binary32_bounds in Hvalid as [Hm He].
  split; apply narrow_product_finite; try assumption; reflexivity.
Qed.

Lemma SecToMillis_MinToMillis_finite_witness :
  SecToMillis (S754_finite false 12582912 (-33)) = Some 1
  /\ MinToMillis (S754_finite false 12582912 (-33)) = Some 87.
Proof.
  exact (SecToMillis_MinToMillis_finite false 12582912 (-33) eq_refl).
Defined.

Lemma float_of_Z_nonzero (s : bool) (p : positive) :
  Z.pos p < 2 ^ 24 ->
  float_of_Z (cond_Zopp s (Z.pos p))
  = S754_finite s (shl_to 24 p) (Z.pos (digits2_pos p) - 24).
Proof.
  intros Hp.
  assert (Hd : Z.pos (digits2_pos p) <= 24) by (apply digits2_pos_le; lia).
  unfold float_of_Z, binary_normalize, prec32, emax32.
  destruct s; cbn [cond_Zopp Z.opp];
    rewrite binary_round_exact by lia; f_equal; lia.
Qed.

Lemma narrow_product_whole (K : positive) (n : Z) :
  Z.pos K < 2 ^ 16 -> - 2 ^ 24 < n < 2 ^ 24 ->
  NarrowConvertToUint32 (T := double)
    (double_mul (double_of_float (float_of_Z n)) (double_of_Z (Z.pos K)))
  = Some (clamp_to_u32 (Z.pos K * n)).
Proof.
  intros HK Hn.
  assert (Hsign : n = 0 \/ exists s p, n = cond_Zopp s (Z.pos p) /\ Z.pos p < 2 ^ 24).
  { destruct n as [|p|p]; [left; reflexivity | right | right].
    - exists false, p. split; [reflexivity | lia].
    - exists true, p. split; [reflexivity | lia]. }
  destruct Hsign as [-> | (s & p & -> & Hp)].
  { rewrite double_of_Z_pos by exact HK. rewrite Z.mul_0_r. reflexivity. }
  assert (Hd : Z.pos (digits2_pos p) <= 24) by (apply digits2_pos_le; lia).
  pose proof (shl_to_Z 24 p Hd) as Hm.
  pose proof (shl_to_digits 24 p Hd) as Hdm.
  pose proof (digits2_pos_bound (shl_to 24 p)) as Hmup. rewrite Hdm in Hmup.
  rewrite float_of_Z_nonzero by exact Hp.
  rewrite narrow_product_finite by (try assumption; lia).
  do 2 f_equal. unfold scaled_integer_part.
  assert (Hint : trunc_mantissa (shl_to 24 p * K) (Z.pos (digits2_pos p) - 24)
                 = Z.pos K * Z.pos p).
  { unfold trunc_mantissa. rewrite Pos2Z.inj_mul, Hm.
    set (k := Z.pos (digits2_pos p)) in *.
    destruct (Z.leb_spec 0 (k - 24)).
    - replace (k - 24) with 0 by lia. replace (24 - k) with 0 by lia.
      change (2 ^ 0) with 1. ring.
    - replace (- (k - 24)) with (24 - k) by lia.
      replace (Z.pos p * 2 ^ (24 - k) * Z.pos K)
        with (Z.pos K * Z.pos p * 2 ^ (24 - k)) by ring.
      apply Z.div_mul. apply Z.pow_nonzero; lia. }
  rewrite Hint. destruct s; cbn [cond_Zopp]; lia.
Qed.

(** X14.  On whole numbers of seconds or minutes, of either sign, below
    [2^24] in size (where [float] holds every integer), the conversions
    return [1000 * n] and [60000 * n] clamped to [uint32_t]; up to the limits
    the header names, 4294967 s and 71582 min, the result is the exact
    product. *)
Theorem SecToMillis_MinToMillis_whole (n : Z) :
  - 2 ^ 24 < n < 2 ^ 24 ->
  SecToMillis (float_of_Z n) = Some (clamp_to_u32 (SEC_TO_MILLIS_MULTI * n))
  /\ MinToMillis (float_of_Z n) = Some (clamp_to_u32 (MIN_TO_MILLIS_MULTI * n))
  /\ (0 <= n <= 4294967 -> SecToMillis (float_of_Z n) = Some (1000 * n))
  /\ (0 <= n <= 71582 -> MinToMillis (float_of_Z n) = Some (60000 * n)).
Proof.
  intros Hn.
  assert (Hsec : SecToMillis (float_of_Z n)
                 = Some (clamp_to_u32 (SEC_TO_MILLIS_MULTI * n)))
    by (apply narrow_product_whole; [reflexivity | exact Hn]).
  assert (Hmin : MinToMillis (float_of_Z n)
                 = Some (clamp_to_u32 (MIN_TO_MILLIS_MULTI * n)))
    by (apply narrow_product_whole; [reflexivity | exact Hn]).
  split; [exact Hsec|]. split; [exact Hmin|]. split; intros Hrange.
  - rewrite Hsec. unfold SEC_TO_MILLIS_MULTI.
    rewrite clamp_to_u32_within; [reflexivity | unfold UINT32_MAX; lia].
  - rewrite Hmin. unfold MIN_TO_MILLIS_MULTI.
    rewrite clamp_to_u32_within; [reflexivity | unfold UINT32_MAX; lia].
Qed.

Lemma SecToMillis_MinToMillis_whole_witness :
  SecToMillis (float_of_Z 4294967) = Some 4294967000
  /\ MinToMillis (float_of_Z 71583) = Some UINT32_MAX
  /\ SecToMillis (float_of_Z (-7)) = Some 0.
Proof.
  split; [|split].
  - apply (SecToMillis_MinToMillis_whole 4294967); lia.
  - apply (SecToMillis_MinToMillis_whole 71583). lia.
  - apply (SecToMillis_MinToMillis_whole (-7)). lia.
Defined.

(** X15.  Among the values of [float], NaN is the only argument for which
    the conversions have no defined result (the product, NaN again, passes
    both comparisons and reaches the cast to [uint32_t]); zeros, finite
    values and infinities all get one. *)
Theorem SecToMillis_MinToMillis_undefined_iff_nan (x : float) :
  valid_binary prec32 emax32 x = true ->
  (SecToMillis x = None <-> x = S754_nan)
  /\ (MinToMillis x = None <-> x = S754_nan).
Proof.
  intros Hvalid. destruct x as [s | s | | s m e].
  - destruct s; split; split; discriminate.
  - destruct s; split; split; discriminate.
  - split; split; reflexivity.
  - apply valid_binary32_bounds in Hvalid as [Hm He].
    unfold SecToMillis, MinToMillis, SEC_TO_MILLIS_MULTI, MIN_TO_MILLIS_MULTI.
    rewrite !narrow_product_finite by (try assumption; reflexivity).
    split; split; discriminate.
Qed.

Lemma SecToMillis_MinToMillis_undefined_iff_nan_witness :
  (SecToMillis (S754_infinity false) = None <-> S754_infinity false = S754_nan)
  /\ (MinToMillis (S754_infinity false) = None <-> S754_infinity false = S754_nan).
Proof.
  exact (SecToMillis_MinToMillis_undefined_iff_nan (S754_infinity false) eq_refl).
Defined.
